(** * jppy: the session-scoped token accumulator of [jppy/tokenizer.py]

    A shallow embedding of the normalizer ([morphome_to_pos],
    [morpheme_to_token], [token_to_id]) and of the four handlers
    ([create], [tokenize], [finalize], [destroy]) together with the
    properties of the accumulator that the specification states.

    Python values are modelled as follows.
    - [str] is [string]; [int] is [Z].
    - [session_data.items] is a Python [dict]: a map that remembers the
      order in which its keys were first inserted.  That order is what
      [list(items.values())] exposes and what a stable sort keeps among
      ties, so the dict is an association list with unique keys.
    - [set(...)] is a [gset string]; [list(set(...))] is [elements] of it:
      duplicate free, same members, in an order no property below uses.
    - the in-memory backend is a dictionary from session ids to session
      data, a [gmap]. *)

From Stdlib Require Import ZArith String Ascii List Sorted Permutation.
From Stdlib Require Import DecimalString.
From stdpp Require Import base decidable option list gmap strings sorting.

Local Open Scope Z_scope.

(** ** Models *)

(** [sudachipy.Morpheme], through the four accessors the program calls. *)
Record Morpheme := {
  dictionary_form : string;
  normalized_form : string;
  reading_form : string;
  part_of_speech : list string
}.

(** [class TokenResponse(BaseModel)]; the Python field [part_of_speech]
    is [pos] here, the accessor name being taken by [Morpheme]. *)
Record TokenResponse := {
  dictionary : string;
  normalized : string;
  reading : list string;
  pos : string;
  count : Z
}.

(** ** Tokenizer: the normalizer *)

(** The separator of the sub-tags, the literal of [morphome_to_pos]. *)
Definition pos_separator : string := "・".

(** The separator of the identity key, the literal tab of [token_to_id]. *)
Definition id_separator : string := String "009"%char EmptyString.

(** The placeholder sub-tag. *)
Definition placeholder : string := "*".

(** [sep.join(parts)] *)
Definition join (sep : string) (parts : list string) : string :=
  String.concat sep parts.

(** ["・".join(filter(lambda x: x != "*", m.part_of_speech()))] *)
Definition morphome_to_pos (m : Morpheme) : string :=
  join pos_separator
       (List.filter (fun x => negb (String.eqb x placeholder)) (part_of_speech m)).

Definition morpheme_to_token (m : Morpheme) : TokenResponse :=
  {| dictionary := dictionary_form m;
     normalized := normalized_form m;
     reading := [reading_form m];
     pos := morphome_to_pos m;
     count := 1 |}.

(** ["\t".join([t.normalized, t.part_of_speech])] *)
Definition token_to_id (t : TokenResponse) : string :=
  join id_separator [normalized t; pos t].

(** The identity key of a morpheme, as the loop of [tokenize] computes it. *)
Definition morpheme_id (m : Morpheme) : string :=
  token_to_id (morpheme_to_token m).

(** ** Python containers *)

(** A [dict] with [str] keys: the pairs in order of first insertion. *)
Definition dict (V : Type) : Type := list (string * V).

(** [d.get(k)] *)
Fixpoint dict_get {V} (d : dict V) (k : string) : option V :=
  match d with
  | [] => None
  | (k', v') :: d' => if decide (k = k') then Some v' else dict_get d' k
  end.

(** [d[k] = v]: an existing key keeps its place, a new one goes last. *)
Fixpoint dict_set {V} (d : dict V) (k : string) (v : V) : dict V :=
  match d with
  | [] => [(k, v)]
  | (k', v') :: d' =>
      if decide (k = k') then (k', v) :: d' else (k', v') :: dict_set d' k v
  end.

Definition dict_keys {V} (d : dict V) : list string := fst <$> d.

(** [d.values()] *)
Definition dict_values {V} (d : dict V) : list V := snd <$> d.

(** [list(set(l))] *)
Definition list_of_set (l : list string) : list string :=
  elements (list_to_set l : gset string).

(** [l[0]] on a list of strings.  The only use is [t.reading[0]] for a
    token that [morpheme_to_token] has just built, whose [reading] has one
    element (lemma [reading_0_morpheme_to_token]); the default stands for
    the [IndexError] that cannot arise there. *)
Definition index_0 (l : list string) : string := default EmptyString (head l).

(** Insertion of [x] in front of the first element whose key is not
    smaller: with [stable_sort] below, the stable ascending sort that
    [list.sort(key=...)] performs on the keys it has computed. *)
Fixpoint insert_by {A} (key : A -> Z) (x : A) (l : list A) : list A :=
  match l with
  | [] => [x]
  | y :: l' =>
      if decide (key x <= key y) then x :: y :: l' else y :: insert_by key x l'
  end.

Definition stable_sort {A} (key : A -> Z) (l : list A) : list A :=
  foldr (insert_by key) [] l.

(** [l.sort(key=f)] for a key function with an effect on its argument:
    [f] is called once on each element, in list order, the list is then
    sorted in place by the keys obtained, and the call evaluates to [None].
    The pair is the list after the call and the value of the call. *)
Definition list_sort {A} (f : A -> A * Z) (l : list A)
  : list A * option (list A) :=
  let decorated := f <$> l in
  (fst <$> stable_sort snd decorated, None).

(** ** Session *)

Record SessionData := {
  exclude : list string;
  items : dict TokenResponse
}.

(** [SessionData(exclude=...)], [items] taking its default [{}]. *)
Definition SessionData_new (exclude : list string) : SessionData :=
  {| exclude := exclude; items := [] |}.

Definition UUID : Type := N.

(** [InMemoryBackend[UUID, SessionData]]: the sessions by id.  The class
    belongs to the session library, not to this program; of it the model
    keeps a dictionary with [create], a lookup and [delete].  [tokenize]
    changes the session data it receives in place and writes nothing back,
    so the data the verifier yields is taken to be the session's own
    object: what a handler does to it is the session's new data. *)
Abbreviation store := (gmap UUID SessionData).

Inductive response :=
| SuccessResponse
| OutputResponse (result : list TokenResponse).

Inductive error :=
| HTTPException (status_code : Z) (detail : string)
| KeyError (session_id : UUID)     (* [del data[session_id]], no such key *)
| BackendError                     (* [backend.create] on an existing id *)
| ValidationError.                 (* a model built from a bad field *)

Inductive outcome :=
| Returned (r : response)
| Raised (e : error).

(** The exception of the verifier, as [verifier] is built. *)
Definition auth_http_exception : error := HTTPException 403 "invalid session".

(** The two ways the program signals a session id without a live entry:
    the verifier's rejection and the backend's missing key. *)
Definition SessionNotFound (e : error) : bool :=
  match e with
  | HTTPException 403 "invalid session" => true
  | KeyError _ => true
  | _ => false
  end.

(** [Depends(verifier)]: the session's data when the session exists
    ([verify_session] accepts every session), else the exception. *)
Definition verifier (backend : store) (session_id : UUID) : error + SessionData :=
  match backend !! session_id with
  | Some session_data => inr session_data
  | None => inl auth_http_exception
  end.

(** [await backend.delete(session_id)] *)
Definition backend_delete (backend : store) (session_id : UUID) : error + store :=
  match backend !! session_id with
  | Some _ => inr (delete session_id backend)
  | None => inl (KeyError session_id)
  end.

(** [OutputResponse(result=...)]: the field is a required list, so the
    model is not built from [None]. *)
Definition mk_OutputResponse (result : option (list TokenResponse)) : outcome :=
  match result with
  | Some l => Returned (OutputResponse l)
  | None => Raised ValidationError
  end.

(** ** API *)

(** [create]; [session] is the value of [uuid4()]. *)
Definition create (session : UUID) (exclude : list TokenResponse)
    (backend : store) : store * outcome :=
  let data := SessionData_new (list_of_set (token_to_id <$> exclude)) in
  match backend !! session with
  | Some _ => (backend, Raised BackendError)
  | None => (<[session := data]> backend, Returned SuccessResponse)
  end.

(** One turn of the loop of [tokenize] on the morpheme [m].  The test
    [if v:] is on a model object or [None]; a model object is never falsy,
    so the test tells a present key from an absent one. *)
Definition tokenize_step (not_allowed : gset string)
    (items : dict TokenResponse) (m : Morpheme) : dict TokenResponse :=
  let t := morpheme_to_token m in
  let id := token_to_id t in
  if decide (id ∈ not_allowed) then items
  else
    let v :=
      match dict_get items id with
      | Some v =>
          {| dictionary := dictionary v;
             normalized := normalized v;
             reading := reading v ++ [index_0 (reading t)];
             pos := pos v;
             count := count v + 1 |}
      | None => t
      end in
    dict_set items id v.

(** The loop of [tokenize] over the morphemes of a text. *)
Definition tokenize_loop (not_allowed : gset string)
    (items : dict TokenResponse) (ms : list Morpheme) : dict TokenResponse :=
  foldl (tokenize_step not_allowed) items ms.

(** [sorter] of [finalize]: the token with its readings replaced, and the
    key returned. *)
Definition sorter (v : TokenResponse) : TokenResponse * Z :=
  ({| dictionary := dictionary v;
      normalized := normalized v;
      reading := list_of_set (reading v);
      pos := pos v;
      count := count v |},
   - count v).

(** The temporary list [list(session_data.items.values())] of [finalize]
    once [.sort(key=sorter)] has run on it. *)
Definition finalize_sorted (session_data : SessionData) : list TokenResponse :=
  fst (list_sort sorter (dict_values (items session_data))).

(** The value [finalize] binds to [result]. *)
Definition finalize_result (session_data : SessionData)
  : option (list TokenResponse) :=
  snd (list_sort sorter (dict_values (items session_data))).

Section Tokenize.

(** [tokenizer.tokenize], the segmenter. *)
Variable segment : string -> list Morpheme.

(** The body of [tokenize] on the session data it is given. *)
Definition tokenize_data (text : string) (session_data : SessionData)
  : SessionData :=
  let not_allowed : gset string := list_to_set (exclude session_data) in
  let items' := tokenize_loop not_allowed (items session_data) (segment text) in
  {| exclude := exclude session_data; items := items' |}.

(** Several texts submitted one after the other. *)
Definition tokenize_all (texts : list string) (session_data : SessionData)
  : SessionData :=
  foldl (fun sd text => tokenize_data text sd) session_data texts.

(** The morphemes of several texts, in the order they are merged. *)
Definition morphemes_of (texts : list string) : list Morpheme :=
  concat (segment <$> texts).

Definition tokenize (session_id : UUID) (text : string) (backend : store)
  : store * outcome :=
  match verifier backend session_id with
  | inl e => (backend, Raised e)
  | inr session_data =>
      (<[session_id := tokenize_data text session_data]> backend,
       Returned SuccessResponse)
  end.

End Tokenize.

Definition finalize (session_id : UUID) (backend : store) : store * outcome :=
  match verifier backend session_id with
  | inl e => (backend, Raised e)
  | inr session_data =>
      let result := finalize_result session_data in
      match backend_delete backend session_id with
      | inl e => (backend, Raised e)
      | inr backend' => (backend', mk_OutputResponse result)
      end
  end.

Definition destroy (session_id : UUID) (backend : store) : store * outcome :=
  match backend_delete backend session_id with
  | inl e => (backend, Raised e)
  | inr backend' => (backend', Returned SuccessResponse)
  end.

(** ** A segmenter and some morphemes for the examples *)

(** One morpheme per character of the text, a noun whose three forms are
    that character. *)
Fixpoint char_segment (text : string) : list Morpheme :=
  match text with
  | EmptyString => []
  | String c rest =>
      {| dictionary_form := String c EmptyString;
         normalized_form := String c EmptyString;
         reading_form := String c EmptyString;
         part_of_speech := ["noun"; "*"; "common"; "*"] |}
      :: char_segment rest
  end.

Definition neko : Morpheme :=
  {| dictionary_form := "猫"; normalized_form := "猫"; reading_form := "ねこ";
     part_of_speech := ["名詞"; "普通名詞"; "一般"; "*"; "*"; "*"] |}.

Definition neko_kana : Morpheme :=
  {| dictionary_form := "ネコ"; normalized_form := "猫"; reading_form := "ネコ";
     part_of_speech := ["名詞"; "普通名詞"; "一般"; "*"; "*"; "*"] |}.

Definition inu : Morpheme :=
  {| dictionary_form := "犬"; normalized_form := "犬"; reading_form := "いぬ";
     part_of_speech := ["名詞"; "普通名詞"; "一般"; "*"; "*"; "*"] |}.

(** ** Notions the properties are stated with *)

(** The token [v] after one more occurrence with reading [r]. *)
Definition occurrence (v : TokenResponse) (r : string) : TokenResponse :=
  {| dictionary := dictionary v; normalized := normalized v;
     reading := reading v ++ [r]; pos := pos v; count := count v + 1 |}.

(** What one accepted occurrence does to the entry of its key. *)
Definition merge_entry (o : option TokenResponse) (m : Morpheme)
  : option TokenResponse :=
  Some (match o with
        | Some v => occurrence v (reading_form m)
        | None => morpheme_to_token m
        end).

(** The morphemes of [ms] with key [k], in order. *)
Definition occurrences_of (k : string) (ms : list Morpheme) : list Morpheme :=
  filter (fun m => morpheme_id m = k) ms.

(** The morphemes of [ms] that [not_allowed] lets through, in order. *)
Definition accepted (na : gset string) (ms : list Morpheme) : list Morpheme :=
  filter (fun m => morpheme_id m ∉ na) ms.

(** The token as [sorter] leaves it. *)
Definition sorter_token (v : TokenResponse) : TokenResponse := (sorter v).1.

(** The second branch of C2 as the specification words it: a reading the
    token already has does not enlarge its readings. *)
Definition duplicate_reading_not_added : Prop :=
  ∀ (na : gset string) (its : dict TokenResponse) (m : Morpheme) v v',
    morpheme_id m ∉ na ->
    dict_get its (morpheme_id m) = Some v ->
    reading_form m ∈ reading v ->
    dict_get (tokenize_step na its m) (morpheme_id m) = Some v' ->
    length (reading v') = length (reading v).

(** The order C3 states: by count descending, then by normalized form,
    then by part of speech. *)
Definition specified_order (a b : TokenResponse) : bool :=
  (count b <? count a)
  || ((count a =? count b)
      && (String.ltb (normalized a) (normalized b)
          || (String.eqb (normalized a) (normalized b)
              && String.leb (pos a) (pos b)))).

(** The first half of C3: the list is sorted by [specified_order]. *)
Definition finalize_order_as_specified : Prop :=
  ∀ (segment : string -> list Morpheme) (ex texts : list string),
    StronglySorted (fun a b => specified_order a b = true)
      (finalize_sorted (tokenize_all segment texts (SessionData_new ex))).

(** The second half of C3: the same morphemes in another order give the
    same list. *)
Definition finalize_order_permutation_invariant : Prop :=
  ∀ (segment : string -> list Morpheme) (ex texts1 texts2 : list string),
    morphemes_of segment texts1 ≡ₚ morphemes_of segment texts2 ->
    finalize_sorted (tokenize_all segment texts1 (SessionData_new ex))
    = finalize_sorted (tokenize_all segment texts2 (SessionData_new ex)).

(** ** Further notions *)

(** The values of a dictionary, measured by [f] and added up. *)
Definition dict_total {V} (f : V -> Z) (d : dict V) : Z :=
  foldr (fun kv acc => f kv.2 + acc) 0 d.

(** The counts of the tokens of [items], added up. *)
Definition total_count (d : dict TokenResponse) : Z := dict_total count d.

(** Whether the character [c] occurs in [s]. *)
Fixpoint has_char (c : ascii) (s : string) : bool :=
  match s with
  | EmptyString => false
  | String c' s' => if decide (c = c') then true else has_char c s'
  end.

(** The character of [id_separator]. *)
Definition tab : ascii := "009"%char.

(** Calls of [tokenize] on one session id, one for each text in turn: the
    backend after the last call. *)
Definition tokenize_calls (segment : string -> list Morpheme)
    (session_id : UUID) (texts : list string) (backend : store) : store :=
  foldl (fun b text => (tokenize segment session_id text b).1) backend texts.

(** ** The script [scripts/test.py] *)

(** [mapping[elem] = mapping.get(elem, 0) + 1], the update [Counter]
    makes for an element. *)
Definition count_element (mapping : dict Z) (elem : string) : dict Z :=
  dict_set mapping elem (default 0 (dict_get mapping elem) + 1).

(** [Counter(l)]: the elements of [l] counted in their order. *)
Definition Counter (l : list string) : dict Z := foldl count_element [] l.

(** [c.most_common()], which is
    [sorted(c.items(), key=itemgetter(1), reverse=True)]: by count
    descending, equal counts staying in the order of the dictionary. *)
Definition most_common (c : dict Z) : list (string * Z) :=
  stable_sort (fun kn => - kn.2) c.

(** [str(n)] *)
Definition str_int (n : Z) : string := NilEmpty.string_of_int (Z.to_int n).

Section Script.

(** [tokenizer_obj.tokenize] and [re_ja.search], the latter as the truth
    value the script tests. *)
Variable segment : string -> list Morpheme.
Variable re_ja_search : string -> bool.

(** The string the script appends for the morpheme [t]. *)
Definition script_line (t : Morpheme) : string :=
  join " "
    [dictionary_form t; normalized_form t; reading_form t;
     join pos_separator
       (List.filter (fun x => negb (String.eqb x placeholder))
                    (part_of_speech t))].

(** The first loop of the script: [items] after it. *)
Definition script_items (text : string) : list string :=
  foldl (fun items t =>
           if re_ja_search (normalized_form t)
           then items ++ [script_line t] else items)
        [] (segment text).

(** The second loop: the lines printed, in order. *)
Definition script_output (text : string) : list string :=
  (fun kn => kn.1 +:+ "         " +:+ str_int kn.2)
    <$> most_common (Counter (script_items text)).

End Script.

(** * Properties *)

(** ** The dictionary operations *)

Section Dict.

Context {V : Type}.
Implicit Types (d : dict V) (k : string) (v : V).

Lemma dict_get_set_eq d k v : dict_get (dict_set d k v) k = Some v.
Proof.
  induction d as [|[k' v'] d IH]; simpl.
  - by rewrite decide_True.
  - destruct (decide (k = k')) as [->|Hne]; simpl.
    + by rewrite decide_True.
    + by rewrite decide_False.
Qed.

Lemma dict_get_set_ne d k k' v :
  k ≠ k' -> dict_get (dict_set d k v) k' = dict_get d k'.
Proof.
  intros Hne. induction d as [|[k0 v0] d IH]; simpl.
  - by rewrite decide_False.
  - destruct (decide (k = k0)) as [->|Hk]; simpl.
    + by rewrite !decide_False.
    + destruct (decide (k' = k0)); [done | apply IH].
Qed.

Lemma dict_get_None d k : dict_get d k = None <-> k ∉ dict_keys d.
Proof.
  induction d as [|[k0 v0] d IH]; simpl.
  - split; [intros _; apply not_elem_of_nil | done].
  - rewrite not_elem_of_cons. destruct (decide (k = k0)) as [->|Hk].
    + split; [done | by intros [? _]].
    + rewrite IH. split; [done | by intros [_ ?]].
Qed.

Lemma dict_keys_set d k v :
  dict_keys (dict_set d k v) =
  if dict_get d k is Some _ then dict_keys d else dict_keys d ++ [k].
Proof.
  induction d as [|[k0 v0] d IH]; simpl; [done|].
  destruct (decide (k = k0)) as [->|Hk]; simpl; [done|].
  rewrite IH. by destruct (dict_get d k).
Qed.

Lemma dict_keys_set_NoDup d k v :
  NoDup (dict_keys d) -> NoDup (dict_keys (dict_set d k v)).
Proof.
  intros Hnd. rewrite dict_keys_set.
  destruct (dict_get d k) eqn:Hget; [done|].
  apply NoDup_app. split_and!; [done | | apply NoDup_singleton].
  intros x Hx ->%list_elem_of_singleton. by apply dict_get_None in Hget.
Qed.

Lemma dict_get_elem_of d k v : dict_get d k = Some v -> (k, v) ∈ d.
Proof.
  induction d as [|[k0 v0] d IH]; simpl; [done|].
  destruct (decide (k = k0)) as [->|Hk].
  - intros [= ->]. apply list_elem_of_here.
  - intros Hget. apply list_elem_of_further. by apply IH.
Qed.

Lemma dict_elem_of_get d k v :
  NoDup (dict_keys d) -> (k, v) ∈ d -> dict_get d k = Some v.
Proof.
  induction d as [|[k0 v0] d IH]; simpl.
  - by intros _ ?%elem_of_nil.
  - intros [Hk0 Hnd]%NoDup_cons [[= -> ->]|Hin]%elem_of_cons.
    + by rewrite decide_True.
    + rewrite decide_False; [by apply IH|].
      intros ->. apply Hk0. unfold dict_keys.
      apply list_elem_of_fmap. by exists (k0, v).
Qed.

End Dict.

(** ** The normalizer *)

Lemma reading_0_morpheme_to_token m :
  index_0 (reading (morpheme_to_token m)) = reading_form m.
Proof. reflexivity. Qed.

Lemma python_filter_placeholder (tags : list string) :
  List.filter (fun x => negb (String.eqb x placeholder)) tags
  = filter (fun x => x ≠ placeholder) tags.
Proof.
  induction tags as [|x tags IH]; [done|].
  rewrite filter_cons. simpl. rewrite IH.
  destruct (String.eqb_spec x placeholder) as [Heq|Hne]; simpl.
  - by rewrite decide_False; [|intros Hx; apply Hx].
  - by rewrite decide_True.
Qed.

Lemma python_filter_all_placeholders (n : nat) :
  List.filter (fun x => negb (String.eqb x placeholder)) (replicate n placeholder)
  = [].
Proof. induction n as [|n IH]; [done|]. simpl. apply IH. Qed.

(** C8.  The part of speech of the token of a morpheme is the sub-tags
    other than the placeholder, in their order, joined with
    [pos_separator]; it is the empty string when every sub-tag is the
    placeholder.  The identity key is the normalized form, then
    [id_separator], then that part of speech; a morpheme that differs only
    in its reading (and dictionary form) has the same key. *)
Theorem normalizer_pos_and_key (m : Morpheme) :
  let t := morpheme_to_token m in
  pos t = join pos_separator (filter (fun x => x ≠ placeholder) (part_of_speech m))
  ∧ (∀ (n : nat) d nf r,
       morphome_to_pos {| dictionary_form := d; normalized_form := nf;
                          reading_form := r;
                          part_of_speech := replicate n placeholder |}
       = EmptyString)
  ∧ token_to_id t = normalized_form m +:+ id_separator +:+ pos t
  ∧ (∀ d r,
       morpheme_id {| dictionary_form := d;
                      normalized_form := normalized_form m;
                      reading_form := r;
                      part_of_speech := part_of_speech m |} = token_to_id t).
Proof.
  simpl. split_and!.
  - unfold morphome_to_pos. by rewrite python_filter_placeholder.
  - intros n d nf r. unfold morphome_to_pos. simpl.
    by rewrite python_filter_all_placeholders.
  - reflexivity.
  - reflexivity.
Qed.

(** ** One turn of the loop of [tokenize] *)

Lemma tokenize_step_excluded na its m :
  morpheme_id m ∈ na -> tokenize_step na its m = its.
Proof. intros Hin. unfold tokenize_step. by rewrite decide_True. Qed.

Lemma tokenize_step_accepted na its m :
  morpheme_id m ∉ na ->
  tokenize_step na its m =
  dict_set its (morpheme_id m)
    (match dict_get its (morpheme_id m) with
     | Some v => occurrence v (reading_form m)
     | None => morpheme_to_token m
     end).
Proof. intros Hin. unfold tokenize_step. by rewrite decide_False. Qed.

(** C2, as stated, fails: after 猫 (ねこ) has been merged once, merging it
    again leaves the token with the readings ねこ, ねこ. *)
Lemma tokenize_step_keeps_duplicate_reading :
  (reading <$> dict_get (tokenize_step ∅ (tokenize_loop ∅ [] [neko]) neko)
                        (morpheme_id neko)) = Some ["ねこ"; "ねこ"]
  ∧ ¬ duplicate_reading_not_added.
Proof.
  split; [by vm_compute|].
  intros Hspec.
  pose (v := morpheme_to_token neko).
  specialize (Hspec ∅ (tokenize_loop ∅ [] [neko]) neko v
                (occurrence v (reading_form neko))).
  assert (length (reading (occurrence v (reading_form neko)))
          = length (reading v)) as Hlen; [|by vm_compute in Hlen].
  apply Hspec.
  - apply not_elem_of_empty.
  - by vm_compute.
  - apply list_elem_of_here.
  - by vm_compute.
Qed.

(** C2, amended.  For a morpheme whose key is not excluded: when the key
    is in [items], the reading is appended to the token's list of readings
    (whether or not the list has it already, so that the set of the readings
    gains at most that one) and the count grows by exactly 1; when the key
    is not in [items], the token of the morpheme, with count 1 and that one
    reading, is stored under the key.  Nothing else in [items] changes. *)
Theorem tokenize_step_merges (na : gset string) (its : dict TokenResponse)
    (m : Morpheme) :
  morpheme_id m ∉ na ->
  let its' := tokenize_step na its m in
  (∀ v, dict_get its (morpheme_id m) = Some v ->
     ∃ v', dict_get its' (morpheme_id m) = Some v'
       ∧ reading v' = reading v ++ [reading_form m]
       ∧ (list_to_set (reading v') : gset string)
         = list_to_set (reading v) ∪ {[reading_form m]}
       ∧ count v' = count v + 1
       ∧ dictionary v' = dictionary v
       ∧ normalized v' = normalized v
       ∧ pos v' = pos v
       ∧ dict_keys its' = dict_keys its)
  ∧ (dict_get its (morpheme_id m) = None ->
     ∃ v', dict_get its' (morpheme_id m) = Some v'
       ∧ v' = morpheme_to_token m
       ∧ count v' = 1
       ∧ reading v' = [reading_form m]
       ∧ dict_keys its' = dict_keys its ++ [morpheme_id m])
  ∧ (∀ k, k ≠ morpheme_id m -> dict_get its' k = dict_get its k).
Proof.
  intros Hna its'. subst its'. rewrite tokenize_step_accepted by done.
  split_and!.
  - intros v Hv. rewrite Hv. exists (occurrence v (reading_form m)).
    rewrite dict_get_set_eq, dict_keys_set, Hv. split_and!; try done.
    simpl. rewrite list_to_set_app_L. simpl. by rewrite (right_id_L ∅ (∪)).
  - intros Hv. rewrite Hv. exists (morpheme_to_token m).
    by rewrite dict_get_set_eq, dict_keys_set, Hv.
  - intros k Hk. by apply dict_get_set_ne.
Qed.

(** A witness of [tokenize_step_merges]: 猫 read ネコ after 猫 read ねこ. *)
Lemma tokenize_step_merges_witness :
  (morpheme_id neko_kana ∉ (∅ : gset string))
  ∧ (reading <$> dict_get (tokenize_step ∅ (tokenize_loop ∅ [] [neko]) neko_kana)
                          (morpheme_id neko_kana)) = Some ["ねこ"; "ネコ"]
  ∧ (count <$> dict_get (tokenize_step ∅ (tokenize_loop ∅ [] [neko]) neko_kana)
                        (morpheme_id neko_kana)) = Some 2.
Proof.
  assert (morpheme_id neko_kana ∉ (∅ : gset string)) as Hna
    by apply not_elem_of_empty.
  split; [exact Hna|].
  destruct (tokenize_step_merges ∅ (tokenize_loop ∅ [] [neko]) neko_kana Hna)
    as (Hpresent & _ & _).
  destruct (Hpresent (morpheme_to_token neko) eq_refl)
    as (v' & Hget & Hr & _ & Hc & _).
  rewrite Hget. simpl. rewrite Hr, Hc. split; reflexivity.
Defined.

(** ** The loop of [tokenize] *)

Lemma tokenize_loop_cons na its m ms :
  tokenize_loop na its (m :: ms)
  = tokenize_loop na (tokenize_step na its m) ms.
Proof. reflexivity. Qed.

Lemma tokenize_loop_app na its ms1 ms2 :
  tokenize_loop na its (ms1 ++ ms2)
  = tokenize_loop na (tokenize_loop na its ms1) ms2.
Proof. unfold tokenize_loop. apply foldl_app. Qed.

Lemma tokenize_loop_keys_NoDup na its ms :
  NoDup (dict_keys its) -> NoDup (dict_keys (tokenize_loop na its ms)).
Proof.
  revert its. induction ms as [|m ms IH]; intros its Hnd; [done|].
  simpl. apply IH. unfold tokenize_step.
  destruct (decide _); [done|]. by apply dict_keys_set_NoDup.
Qed.

(** An excluded key keeps the entry it had: none in a new session. *)
Lemma dict_get_tokenize_loop_excluded na its ms k :
  k ∈ na -> dict_get (tokenize_loop na its ms) k = dict_get its k.
Proof.
  intros Hk. revert its. induction ms as [|m ms IH]; intros its; [done|].
  simpl. rewrite IH. unfold tokenize_step.
  destruct (decide _) as [Hin|Hout]; [done|].
  apply dict_get_set_ne. intros Heq. apply Hout.
  unfold morpheme_id in *. by rewrite Heq.
Qed.

(** The entry of a key that is not excluded is built from the occurrences
    of that key alone. *)
Lemma dict_get_tokenize_loop na its ms k :
  k ∉ na ->
  dict_get (tokenize_loop na its ms) k
  = foldl merge_entry (dict_get its k) (occurrences_of k ms).
Proof.
  intros Hk. revert its. induction ms as [|m ms IH]; intros its; [done|].
  simpl. rewrite IH. unfold occurrences_of. rewrite filter_cons.
  destruct (decide (morpheme_id m = k)) as [<-|Hne]; simpl.
  - rewrite tokenize_step_accepted by done. by rewrite dict_get_set_eq.
  - f_equal. unfold tokenize_step. destruct (decide _); [done|].
    by apply dict_get_set_ne.
Qed.

Lemma foldl_merge_entry_Some v ms :
  foldl merge_entry (Some v) ms
  = Some {| dictionary := dictionary v; normalized := normalized v;
            reading := reading v ++ (reading_form <$> ms); pos := pos v;
            count := count v + Z.of_nat (length ms) |}.
Proof.
  revert v. induction ms as [|m ms IH]; intros v.
  - destruct v; simpl. by rewrite app_nil_r, Z.add_0_r.
  - change (foldl merge_entry (Some v) (m :: ms))
      with (foldl merge_entry (Some (occurrence v (reading_form m))) ms).
    rewrite IH. simpl. do 2 f_equal; [by rewrite <- app_assoc | lia].
Qed.

Lemma foldl_merge_entry_None ms :
  foldl merge_entry None ms
  = match ms with
    | [] => None
    | m0 :: _ =>
        Some {| dictionary := dictionary_form m0;
                normalized := normalized_form m0;
                reading := reading_form <$> ms;
                pos := morphome_to_pos m0;
                count := Z.of_nat (length ms) |}
    end.
Proof.
  destruct ms as [|m0 ms]; [done|].
  change (foldl merge_entry None (m0 :: ms))
    with (foldl merge_entry (Some (morpheme_to_token m0)) ms).
  rewrite foldl_merge_entry_Some. simpl. do 2 f_equal. lia.
Qed.

(** The excluded morphemes could as well not be there. *)
Lemma tokenize_loop_accepted na its ms :
  tokenize_loop na its ms = tokenize_loop ∅ its (accepted na ms).
Proof.
  revert its. induction ms as [|m ms IH]; intros its; [done|].
  rewrite tokenize_loop_cons, IH. unfold accepted. rewrite filter_cons.
  destruct (decide (morpheme_id m ∉ na)) as [Hout|Hin].
  - rewrite tokenize_loop_cons. f_equal.
    rewrite !tokenize_step_accepted; [done | | done].
    apply not_elem_of_empty.
  - rewrite tokenize_step_excluded; [done|].
    by destruct (decide (morpheme_id m ∈ na)).
Qed.

Lemma accepted_idemp na ms : accepted na (accepted na ms) = accepted na ms.
Proof.
  unfold accepted. induction ms as [|m ms IH]; [done|].
  rewrite filter_cons. destruct (decide _) as [Hout|Hin]; [|done].
  rewrite filter_cons. rewrite decide_True by done. by rewrite IH.
Qed.

(** ** [tokenize] on a session *)

Section TokenizeProperties.

Variable segment : string -> list Morpheme.

Implicit Types (ex : list string) (texts : list string) (sd : SessionData).

(** Texts merged one after the other are one loop over their morphemes. *)
Lemma tokenize_all_loop texts sd :
  tokenize_all segment texts sd
  = {| exclude := exclude sd;
       items := tokenize_loop (list_to_set (exclude sd)) (items sd)
                              (morphemes_of segment texts) |}.
Proof.
  revert sd. induction texts as [|text texts IH]; intros sd.
  - by destruct sd.
  - change (tokenize_all segment (text :: texts) sd)
      with (tokenize_all segment texts (tokenize_data segment text sd)).
    rewrite IH. simpl. f_equal.
    unfold morphemes_of. simpl. by rewrite tokenize_loop_app.
Qed.

Lemma tokenize_all_keys_NoDup texts ex :
  NoDup (dict_keys (items (tokenize_all segment texts (SessionData_new ex)))).
Proof.
  rewrite tokenize_all_loop. simpl.
  apply tokenize_loop_keys_NoDup. apply NoDup_nil_2.
Qed.

Lemma tokenize_all_accepted texts ex :
  items (tokenize_all segment texts (SessionData_new ex))
  = tokenize_loop ∅ [] (accepted (list_to_set ex) (morphemes_of segment texts)).
Proof. rewrite tokenize_all_loop. simpl. apply tokenize_loop_accepted. Qed.

Lemma tokenize_data_split sd T T1 T2 :
  segment T = segment T1 ++ segment T2 ->
  tokenize_data segment T2 (tokenize_data segment T1 sd)
  = tokenize_data segment T sd.
Proof.
  intros Hseg. unfold tokenize_data. simpl.
  by rewrite Hseg, tokenize_loop_app.
Qed.

End TokenizeProperties.

(** C4.  In a session created with the exclusions [ex], after any texts
    have been merged, no key of [ex] is in [items]; and [items] is what
    merging the same morphemes without the excluded ones gives, with the
    exclusions or with none at all: the excluded occurrences change no
    count and no readings. *)
Theorem excluded_never_recorded (segment : string -> list Morpheme)
    (ex : list string) (texts : list string) :
  let sd := tokenize_all segment texts (SessionData_new ex) in
  let not_allowed : gset string := list_to_set ex in
  Forall (fun k => dict_get (items sd) k = None ∧ k ∉ dict_keys (items sd)) ex
  ∧ items sd
    = tokenize_loop ∅ [] (accepted not_allowed (morphemes_of segment texts))
  ∧ items sd
    = tokenize_loop not_allowed []
        (accepted not_allowed (morphemes_of segment texts)).
Proof.
  intros sd na. subst sd. split_and!.
  - rewrite tokenize_all_loop. simpl. fold na.
    apply Forall_forall. intros k Hk.
    assert (dict_get (tokenize_loop na [] (morphemes_of segment texts)) k = None)
      as Hget.
    { rewrite dict_get_tokenize_loop_excluded; [done|].
      by apply elem_of_list_to_set. }
    split; [done | by apply dict_get_None].
  - apply tokenize_all_accepted.
  - rewrite (tokenize_loop_accepted na [] (accepted _ _)).
    rewrite accepted_idemp. apply tokenize_all_accepted.
Qed.

(** C5.  When the morphemes of [T1] followed by those of [T2] are the
    morphemes of the whole text, merging [T1] and then [T2] into a new
    session leaves the session as merging the whole text does. *)
Theorem split_invariance (segment : string -> list Morpheme)
    (ex : list string) (T1 T2 : string) :
  segment (T1 +:+ T2) = segment T1 ++ segment T2 ->
  tokenize_data segment T2 (tokenize_data segment T1 (SessionData_new ex))
  = tokenize_data segment (T1 +:+ T2) (SessionData_new ex).
Proof. apply tokenize_data_split. Qed.

(** A witness of [split_invariance]: "abca" cut after "ab". *)
Lemma split_invariance_witness :
  char_segment ("ab" +:+ "ca") = char_segment "ab" ++ char_segment "ca"
  ∧ tokenize_data char_segment "ca"
      (tokenize_data char_segment "ab" (SessionData_new []))
    = tokenize_data char_segment ("ab" +:+ "ca") (SessionData_new []).
Proof.
  split; [reflexivity|].
  apply (split_invariance char_segment [] "ab" "ca"). reflexivity.
Defined.

(** C10.  In a session created with the exclusions [ex], after any texts
    have been merged, every token of [items] has as many readings as its
    count, one for each accepted occurrence of its key and in their order,
    and its dictionary form is that of the first accepted occurrence. *)
Theorem readings_count_and_first_dictionary
    (segment : string -> list Morpheme) (ex : list string)
    (texts : list string) :
  let sd := tokenize_all segment texts (SessionData_new ex) in
  let ms := accepted (list_to_set ex) (morphemes_of segment texts) in
  Forall (fun kv =>
            Z.of_nat (length (reading kv.2)) = count kv.2
            ∧ reading kv.2 = reading_form <$> occurrences_of kv.1 ms
            ∧ ∃ m0, head (occurrences_of kv.1 ms) = Some m0
                    ∧ dictionary kv.2 = dictionary_form m0)
         (items sd).
Proof.
  intros sd ms. apply Forall_forall. intros [k v] Hin. simpl.
  apply dict_elem_of_get in Hin; [|apply tokenize_all_keys_NoDup].
  subst sd. rewrite tokenize_all_accepted in Hin. fold ms in Hin.
  rewrite dict_get_tokenize_loop in Hin by apply not_elem_of_empty.
  simpl in Hin. rewrite foldl_merge_entry_None in Hin.
  destruct (occurrences_of k ms) as [|m0 occs]; [done|].
  injection Hin as <-. simpl. split_and!.
  - by rewrite length_fmap.
  - done.
  - by exists m0.
Qed.

(** ** The handlers on the backend *)

Lemma verifier_live (backend : store) sid sd :
  backend !! sid = Some sd -> verifier backend sid = inr sd.
Proof. intros Hsd. unfold verifier. by rewrite Hsd. Qed.

Lemma verifier_unknown (backend : store) sid :
  backend !! sid = None -> verifier backend sid = inl auth_http_exception.
Proof. intros Hsd. unfold verifier. by rewrite Hsd. Qed.

Lemma tokenize_unknown segment (backend : store) sid text :
  backend !! sid = None ->
  tokenize segment sid text backend = (backend, Raised auth_http_exception).
Proof. intros Hsd. unfold tokenize. by rewrite verifier_unknown. Qed.

Lemma finalize_unknown (backend : store) sid :
  backend !! sid = None ->
  finalize sid backend = (backend, Raised auth_http_exception).
Proof. intros Hsd. unfold finalize. by rewrite verifier_unknown. Qed.

Lemma destroy_unknown (backend : store) sid :
  backend !! sid = None ->
  destroy sid backend = (backend, Raised (KeyError sid)).
Proof. intros Hsd. unfold destroy, backend_delete. by rewrite Hsd. Qed.

Lemma destroy_live (backend : store) sid sd :
  backend !! sid = Some sd ->
  destroy sid backend = (delete sid backend, Returned SuccessResponse).
Proof. intros Hsd. unfold destroy, backend_delete. by rewrite Hsd. Qed.

(** The value of [list.sort] is [None], whatever the list. *)
Lemma finalize_result_None sd : finalize_result sd = None.
Proof. reflexivity. Qed.

Lemma finalize_live (backend : store) sid sd :
  backend !! sid = Some sd ->
  finalize sid backend = (delete sid backend, Raised ValidationError).
Proof.
  intros Hsd. unfold finalize, backend_delete.
  rewrite (verifier_live _ _ sd) by done. by rewrite Hsd.
Qed.

(** C6.  After [finalize] on a live session the session is no longer in
    the backend; [tokenize] and [finalize] on that id are then rejected by
    the verifier and [destroy] by the backend, each a way of reporting
    that the session is not found, and each leaves the backend as it is. *)
Theorem finalize_consumes (segment : string -> list Morpheme)
    (backend : store) (sid : UUID) (sd : SessionData) :
  backend !! sid = Some sd ->
  let backend' := (finalize sid backend).1 in
  backend' !! sid = None
  ∧ backend' = delete sid backend
  ∧ (∀ text, tokenize segment sid text backend'
             = (backend', Raised auth_http_exception))
  ∧ finalize sid backend' = (backend', Raised auth_http_exception)
  ∧ destroy sid backend' = (backend', Raised (KeyError sid))
  ∧ SessionNotFound auth_http_exception = true
  ∧ SessionNotFound (KeyError sid) = true.
Proof.
  intros Hsd backend'. subst backend'. rewrite (finalize_live _ _ sd) by done.
  simpl.
  assert (delete sid backend !! sid = None) as Hgone by apply lookup_delete_eq.
  split_and!; try done.
  - intros text. by apply tokenize_unknown.
  - by apply finalize_unknown.
  - by apply destroy_unknown.
Qed.

(** A witness of [finalize_consumes]: a backend with the one session 7. *)
Lemma finalize_consumes_witness :
  let backend : store := {[ 7%N := SessionData_new [] ]} in
  backend !! 7%N = Some (SessionData_new [])
  ∧ (finalize 7%N backend).1 !! 7%N = None
  ∧ destroy 7%N (finalize 7%N backend).1
    = ((finalize 7%N backend).1, Raised (KeyError 7%N)).
Proof.
  intros backend.
  assert (backend !! 7%N = Some (SessionData_new [])) as Hlive by reflexivity.
  split; [exact Hlive|].
  destruct (finalize_consumes char_segment backend 7%N _ Hlive)
    as (Hgone & _ & _ & _ & Hdestroy & _).
  split; [exact Hgone | exact Hdestroy].
Defined.

(** C7.  [destroy] on a live session returns success and leaves a backend
    without that session, whatever the session had accumulated; on an id
    with no session it raises the backend's missing key error and leaves
    the backend as it is; so a second [destroy] on the same id fails that
    way and no session comes back. *)
Theorem destroy_removes_or_fails (backend : store) (sid : UUID) :
  match backend !! sid with
  | Some _ =>
      destroy sid backend = (delete sid backend, Returned SuccessResponse)
      ∧ delete sid backend !! sid = None
  | None =>
      destroy sid backend = (backend, Raised (KeyError sid))
  end
  ∧ (let backend' := (destroy sid backend).1 in
     backend' !! sid = None
     ∧ destroy sid backend' = (backend', Raised (KeyError sid)))
  ∧ SessionNotFound (KeyError sid) = true.
Proof.
  split_and!; [| |done].
  - destruct (backend !! sid) as [sd|] eqn:Hsd.
    + split; [by apply (destroy_live _ _ sd) | apply lookup_delete_eq].
    + by apply destroy_unknown.
  - assert ((destroy sid backend).1 !! sid = None) as Hgone.
    { destruct (backend !! sid) as [sd|] eqn:Hsd.
      - rewrite (destroy_live _ _ sd) by done. apply lookup_delete_eq.
      - by rewrite destroy_unknown. }
    split; [done | by apply destroy_unknown].
Qed.

(** C9.  [tokenize] leaves every session's [exclude] as it was, the named
    session's included, and leaves every other session wholly as it was;
    it adds and removes no session. *)
Theorem tokenize_frame (segment : string -> list Morpheme)
    (backend : store) (sid : UUID) (text : string) :
  let backend' := (tokenize segment sid text backend).1 in
  (∀ sid', exclude <$> backend' !! sid' = exclude <$> backend !! sid')
  ∧ delete sid backend' = delete sid backend
  ∧ dom backend' = dom backend.
Proof.
  intros backend'. subst backend'. unfold tokenize, verifier.
  destruct (backend !! sid) as [sd|] eqn:Hsd; simpl; [|done].
  split_and!.
  - intros sid'. destruct (decide (sid = sid')) as [<-|Hne].
    + by rewrite lookup_insert_eq, Hsd.
    + by rewrite lookup_insert_ne.
  - apply delete_insert_eq.
  - apply dom_insert_lookup_L. by rewrite Hsd.
Qed.

(** C1 fails on every live session: the sorted list is computed and then
    lost, [result] being the value of [list.sort], which is [None]; the
    response model is not built from it.  Here on a session that holds 猫
    twice and 犬 once: the list is sorted, [finalize] raises. *)
Theorem finalize_raises_on_live_session :
  let sd := {| exclude := [];
               items := tokenize_loop ∅ [] [inu; neko; neko] |} in
  let backend : store := {[ 7%N := sd ]} in
  (count <$> finalize_sorted sd) = [2; 1]
  ∧ finalize_result sd = None
  ∧ finalize 7%N backend = (∅, Raised ValidationError).
Proof. by vm_compute. Qed.

(** ** The sort of [finalize] *)

Section StableSort.

Context {A : Type} (key : A -> Z).
Implicit Types (x : A) (l : list A).

Lemma stable_sort_cons x l :
  stable_sort key (x :: l) = insert_by key x (stable_sort key l).
Proof. reflexivity. Qed.

Lemma insert_by_perm x l : insert_by key x l ≡ₚ x :: l.
Proof.
  induction l as [|y l IH]; simpl; [done|].
  destruct (decide _); [done|].
  rewrite IH. apply Permutation_swap.
Qed.

Lemma stable_sort_perm l : stable_sort key l ≡ₚ l.
Proof.
  induction l as [|x l IH]; simpl; [done|].
  by rewrite insert_by_perm, IH.
Qed.

Lemma insert_by_sorted x l :
  StronglySorted (fun a b => key a <= key b) l ->
  StronglySorted (fun a b => key a <= key b) (insert_by key x l).
Proof.
  induction 1 as [|y l Hsorted IH Hall]; simpl.
  - repeat constructor.
  - destruct (decide (key x <= key y)) as [Hle|Hgt].
    + constructor; [by constructor|].
      constructor; [done|].
      eapply Forall_impl; [exact Hall|]. simpl. intros z Hz. lia.
    + constructor; [done|].
      rewrite insert_by_perm. constructor; [lia | done].
Qed.

Lemma stable_sort_sorted l :
  StronglySorted (fun a b => key a <= key b) (stable_sort key l).
Proof.
  induction l as [|x l IH]; simpl; [constructor|].
  by apply insert_by_sorted.
Qed.

(** Among the elements of one key the insertion puts [x] first. *)
Lemma insert_by_stable x l c :
  filter (fun a => key a = c) (insert_by key x l)
  = filter (fun a => key a = c) (x :: l).
Proof.
  induction l as [|y l IH]; simpl; [done|].
  destruct (decide (key x <= key y)) as [Hle|Hgt]; [done|].
  rewrite filter_cons, IH, !filter_cons.
  destruct (decide (key y = c)), (decide (key x = c)); try done. lia.
Qed.

(** The sort is stable: the elements of one key keep their order. *)
Lemma stable_sort_stable l c :
  filter (fun a => key a = c) (stable_sort key l)
  = filter (fun a => key a = c) l.
Proof.
  induction l as [|x l IH]; simpl; [done|].
  by rewrite insert_by_stable, !filter_cons, IH.
Qed.

End StableSort.

Lemma StronglySorted_weaken {A} (R1 R2 : A -> A -> Prop) (l : list A) :
  (∀ a b, R1 a b -> R2 a b) -> StronglySorted R1 l -> StronglySorted R2 l.
Proof.
  intros Himp. induction 1 as [|x l Hsorted IH Hall]; constructor; [done|].
  eapply Forall_impl; [exact Hall | apply Himp].
Qed.

Lemma insert_by_sorter v (ps : list (TokenResponse * Z)) :
  Forall (fun p => p.2 = - count p.1) ps ->
  (insert_by snd (sorter v) ps).*1
  = insert_by (fun t => - count t) (sorter_token v) ps.*1.
Proof.
  induction 1 as [|[t k] ps Hk Hall IH]; simpl; [done|].
  simpl in Hk. subst k.
  destruct (decide (- count v <= - count t)); simpl; [done|].
  f_equal. exact IH.
Qed.

(** Sorting the decorated tokens by the returned keys is sorting the
    tokens [sorter] leaves by the opposite of their count. *)
Lemma list_sort_sorter (vs : list TokenResponse) :
  (list_sort sorter vs).1
  = stable_sort (fun t => - count t) (sorter_token <$> vs).
Proof.
  change ((list_sort sorter vs).1) with ((stable_sort snd (sorter <$> vs)).*1).
  induction vs as [|v vs IH]; [done|].
  rewrite !fmap_cons, !stable_sort_cons.
  rewrite insert_by_sorter, IH; [done|].
  rewrite stable_sort_perm. apply Forall_fmap, Forall_true. done.
Qed.

Lemma sorter_token_reading v :
  NoDup (reading (sorter_token v))
  ∧ ∀ r, r ∈ reading (sorter_token v) <-> r ∈ reading v.
Proof.
  simpl. unfold list_of_set. split; [apply NoDup_elements|].
  intros r. by rewrite elem_of_elements, elem_of_list_to_set.
Qed.

(** C3, as stated, fails: after the text "ba" the list [finalize] sorts
    has b before a, both of count 1, and after "ab" it has a before b. *)
Lemma finalize_order_keeps_insertion_order :
  (normalized <$> finalize_sorted
                    (tokenize_all char_segment ["ba"] (SessionData_new [])))
  = ["b"; "a"]
  ∧ (normalized <$> finalize_sorted
                      (tokenize_all char_segment ["ab"] (SessionData_new [])))
    = ["a"; "b"]
  ∧ ¬ finalize_order_as_specified
  ∧ ¬ finalize_order_permutation_invariant.
Proof.
  split_and!; [by vm_compute | by vm_compute | |].
  - intros Hspec. specialize (Hspec char_segment [] ["ba"]).
    vm_compute in Hspec.
    apply StronglySorted_inv in Hspec as [_ Hall].
    apply Forall_inv in Hall. discriminate Hall.
  - intros Hspec. specialize (Hspec char_segment [] ["ba"] ["ab"]).
    assert (morphemes_of char_segment ["ba"] ≡ₚ morphemes_of char_segment ["ab"])
      as Hperm by apply Permutation_swap.
    apply Hspec in Hperm. vm_compute in Hperm. discriminate Hperm.
Qed.

(** C3, amended.  The list [finalize] sorts holds the tokens of [items],
    as [sorter] leaves them, in descending order of count; tokens of the
    same count are in the order [items] has them, the order in which their
    keys were first merged. *)
Theorem finalize_sorted_by_count (sd : SessionData) :
  let tokens := sorter_token <$> dict_values (items sd) in
  finalize_sorted sd ≡ₚ tokens
  ∧ StronglySorted (fun a b => count a >= count b) (finalize_sorted sd)
  ∧ ∀ c, filter (fun t => count t = c) (finalize_sorted sd)
         = filter (fun t => count t = c) tokens.
Proof.
  intros tokens. unfold finalize_sorted. rewrite list_sort_sorter. fold tokens.
  split_and!.
  - apply stable_sort_perm.
  - eapply StronglySorted_weaken;
      [|apply (stable_sort_sorted (fun t => - count t))].
    simpl. intros a b Hab. lia.
  - intros c.
    rewrite (list_filter_iff (fun t => count t = c) (fun t => - count t = - c))
      by (intros t; lia).
    rewrite stable_sort_stable.
    apply list_filter_iff. intros t. lia.
Qed.

(** ** More on the normalizer *)

(** A placeholder among the sub-tags leaves no trace: wherever it stands,
    the part of speech and the identity key are those of the morpheme
    without it. *)
Theorem placeholder_position_ignored (d nf r : string)
    (tags1 tags2 : list string) :
  let m1 := {| dictionary_form := d; normalized_form := nf; reading_form := r;
               part_of_speech := tags1 ++ placeholder :: tags2 |} in
  let m2 := {| dictionary_form := d; normalized_form := nf; reading_form := r;
               part_of_speech := tags1 ++ tags2 |} in
  morphome_to_pos m1 = morphome_to_pos m2 ∧ morpheme_id m1 = morpheme_id m2.
Proof.
  assert (morphome_to_pos
            {| dictionary_form := d; normalized_form := nf; reading_form := r;
               part_of_speech := tags1 ++ placeholder :: tags2 |}
          = morphome_to_pos
              {| dictionary_form := d; normalized_form := nf;
                 reading_form := r; part_of_speech := tags1 ++ tags2 |}) as Hpos.
  { unfold morphome_to_pos. simpl. by rewrite !List.filter_app. }
  simpl. split; [exact Hpos|].
  unfold morpheme_id, token_to_id, morpheme_to_token. simpl. by rewrite Hpos.
Qed.

Lemma append_tab_inj (a a' b b' : string) :
  has_char tab a = false -> has_char tab a' = false ->
  a +:+ String tab b = a' +:+ String tab b' -> a = a' ∧ b = b'.
Proof.
  revert a'. induction a as [|c a IH]; intros [|c' a']; simpl.
  - intros _ _ [= ->]. done.
  - intros _ Hc' [= <- _]. by rewrite decide_True in Hc'.
  - intros Hc _ [= -> _]. by rewrite decide_True in Hc.
  - intros Hc Hc' [= -> Heq].
    destruct (decide (tab = c')); [done|].
    destruct (IH a' Hc Hc' Heq) as [-> ->]. done.
Qed.

(** Tokens whose normalized forms hold no tab have the same identity key
    only when they have the same normalized form and the same part of
    speech. *)
Theorem token_to_id_inj (t1 t2 : TokenResponse) :
  has_char tab (normalized t1) = false ->
  has_char tab (normalized t2) = false ->
  token_to_id t1 = token_to_id t2 ->
  normalized t1 = normalized t2 ∧ pos t1 = pos t2.
Proof. intros H1 H2 Hid. by apply append_tab_inj. Qed.

(** A witness of [token_to_id_inj]: 猫 read ねこ and 猫 read ネコ. *)
Lemma token_to_id_inj_witness :
  has_char tab (normalized (morpheme_to_token neko)) = false
  ∧ token_to_id (morpheme_to_token neko)
    = token_to_id (morpheme_to_token neko_kana)
  ∧ pos (morpheme_to_token neko) = pos (morpheme_to_token neko_kana).
Proof.
  split; [reflexivity|]. split; [reflexivity|].
  apply (token_to_id_inj (morpheme_to_token neko) (morpheme_to_token neko_kana));
    reflexivity.
Defined.

(** ** More on the loop of [tokenize] *)

Lemma dict_total_cons {V} (f : V -> Z) (d : dict V) k v :
  dict_total f ((k, v) :: d) = f v + dict_total f d.
Proof. reflexivity. Qed.

Lemma dict_total_set {V} (f : V -> Z) (d : dict V) k v :
  dict_total f (dict_set d k v)
  = dict_total f d + f v - default 0 (f <$> dict_get d k).
Proof.
  induction d as [|[k0 v0] d IH]; [unfold dict_total; simpl; lia|].
  simpl dict_set. simpl dict_get.
  destruct (decide (k = k0)) as [->|Hne].
  - rewrite !dict_total_cons. simpl. lia.
  - rewrite !dict_total_cons, IH. lia.
Qed.

Lemma tokenize_step_total na its m :
  total_count (tokenize_step na its m)
  = total_count its + (if decide (morpheme_id m ∈ na) then 0 else 1).
Proof.
  destruct (decide (morpheme_id m ∈ na)) as [Hin|Hout].
  - rewrite tokenize_step_excluded by done. lia.
  - rewrite tokenize_step_accepted by done. unfold total_count.
    rewrite dict_total_set.
    destruct (dict_get its (morpheme_id m)); simpl; lia.
Qed.

Lemma tokenize_loop_total na its ms :
  total_count (tokenize_loop na its ms)
  = total_count its + Z.of_nat (length (accepted na ms)).
Proof.
  revert its. induction ms as [|m ms IH]; intros its; [simpl; lia|].
  rewrite tokenize_loop_cons, IH, tokenize_step_total.
  unfold accepted. rewrite filter_cons.
  destruct (decide (morpheme_id m ∈ na)) as [Hin|Hout].
  - rewrite decide_False by (intros Hn; by apply Hn). lia.
  - rewrite decide_True by done. simpl length. lia.
Qed.

Lemma tokenize_step_keys_prefix na its m :
  dict_keys its `prefix_of` dict_keys (tokenize_step na its m).
Proof.
  unfold tokenize_step. destruct (decide _); [done|].
  rewrite dict_keys_set. destruct (dict_get its _); [done|].
  by apply prefix_app_r.
Qed.

Lemma tokenize_loop_keys_prefix na its ms :
  dict_keys its `prefix_of` dict_keys (tokenize_loop na its ms).
Proof.
  revert its. induction ms as [|m ms IH]; intros its; [done|].
  rewrite tokenize_loop_cons. etrans; [|apply IH].
  apply tokenize_step_keys_prefix.
Qed.

(** The loop only adds: over any [items], with any exclusions, the keys
    there before keep their places in front of the new ones, and a token
    there before keeps its forms and part of speech, its count does not
    decrease and its readings are extended at the end. *)
Theorem tokenize_loop_grows (na : gset string) (its : dict TokenResponse)
    (ms : list Morpheme) :
  dict_keys its `prefix_of` dict_keys (tokenize_loop na its ms)
  ∧ ∀ k v, dict_get its k = Some v ->
      ∃ v', dict_get (tokenize_loop na its ms) k = Some v'
        ∧ count v <= count v'
        ∧ reading v `prefix_of` reading v'
        ∧ dictionary v' = dictionary v
        ∧ normalized v' = normalized v
        ∧ pos v' = pos v.
Proof.
  split; [apply tokenize_loop_keys_prefix|].
  intros k v Hv. destruct (decide (k ∈ na)) as [Hin|Hout].
  - exists v. by rewrite dict_get_tokenize_loop_excluded.
  - rewrite dict_get_tokenize_loop, Hv, foldl_merge_entry_Some by done.
    eexists. split; [done|]. simpl. split_and!; try done; [lia|].
    by apply prefix_app_r.
Qed.

(** The entry of a key in a new session's [items], from the accepted
    occurrences of the key. *)
Lemma dict_get_new_session na ms k :
  dict_get (tokenize_loop na [] ms) k
  = if decide (k ∈ na) then None
    else foldl merge_entry None (occurrences_of k ms).
Proof.
  destruct (decide (k ∈ na)) as [Hin|Hout].
  - by rewrite dict_get_tokenize_loop_excluded.
  - by rewrite dict_get_tokenize_loop.
Qed.

Lemma occurrences_of_nil k ms :
  occurrences_of k ms = [] <-> ∀ m, m ∈ ms -> morpheme_id m ≠ k.
Proof.
  unfold occurrences_of. split.
  - intros Hnil m Hm Hid.
    assert (m ∈ filter (fun m => morpheme_id m = k) ms) as Hin
      by (by apply list_elem_of_filter).
    rewrite Hnil in Hin. by apply elem_of_nil in Hin.
  - intros Hall. apply elem_of_nil_inv. intros m [Hid Hm]%list_elem_of_filter.
    by apply (Hall m).
Qed.

Lemma occurrences_of_head k ms m0 occs :
  occurrences_of k ms = m0 :: occs -> morpheme_id m0 = k ∧ m0 ∈ ms.
Proof.
  intros Heq.
  assert (m0 ∈ occurrences_of k ms) as Hin
    by (rewrite Heq; apply list_elem_of_here).
  by apply list_elem_of_filter in Hin.
Qed.

(** The total of the counts grows, with the texts merged into a session,
    by the number of their morphemes that are not excluded. *)
Theorem total_count_accepted (segment : string -> list Morpheme)
    (texts : list string) (sd : SessionData) :
  total_count (items (tokenize_all segment texts sd))
  = total_count (items sd)
    + Z.of_nat (length (accepted (list_to_set (exclude sd))
                                 (morphemes_of segment texts))).
Proof. rewrite tokenize_all_loop. simpl. apply tokenize_loop_total. Qed.

(** In a session created with the exclusions [ex], after any texts, the
    keys of [items] are pairwise distinct and are exactly the keys of the
    morphemes merged that are not in [ex]. *)
Theorem items_keys_exact (segment : string -> list Morpheme)
    (ex : list string) (texts : list string) :
  let sd := tokenize_all segment texts (SessionData_new ex) in
  NoDup (dict_keys (items sd))
  ∧ ∀ k, k ∈ dict_keys (items sd)
         <-> (k ∉ ex)
             ∧ ∃ m, m ∈ morphemes_of segment texts ∧ morpheme_id m = k.
Proof.
  intros sd. split; [apply tokenize_all_keys_NoDup|].
  intros k. subst sd. rewrite tokenize_all_loop. simpl.
  set (ms := morphemes_of segment texts).
  assert (k ∈ dict_keys (tokenize_loop (list_to_set ex) [] ms)
          <-> dict_get (tokenize_loop (list_to_set ex) [] ms) k ≠ None) as ->.
  { rewrite dict_get_None. split; [by intros ? ?|].
    intros Hnn. by destruct (decide (k ∈ dict_keys
      (tokenize_loop (list_to_set ex) [] ms))). }
  rewrite dict_get_new_session.
  destruct (decide (k ∈ list_to_set ex)) as [Hin|Hout].
  - apply elem_of_list_to_set in Hin. split; [done | by intros [? _]].
  - rewrite elem_of_list_to_set in Hout.
    rewrite foldl_merge_entry_None.
    destruct (occurrences_of k ms) as [|m0 occs] eqn:Hocc.
    + split; [done|]. intros (_ & m & Hm & Hid). exfalso.
      by apply (proj1 (occurrences_of_nil k ms) Hocc m).
    + destruct (occurrences_of_head _ _ _ _ Hocc) as [Hid Hm].
      split; [|done]. intros _. split; [done|]. by exists m0.
Qed.

(** In a session created with the exclusions [ex], after any texts, each
    token of [items] sits under its own identity key, which is not in
    [ex]; its count is at least 1 and it has a reading. *)
Theorem items_key_consistent (segment : string -> list Morpheme)
    (ex : list string) (texts : list string) :
  let sd := tokenize_all segment texts (SessionData_new ex) in
  Forall (fun kv =>
            token_to_id kv.2 = kv.1
            ∧ (kv.1 ∉ ex)
            ∧ 1 <= count kv.2
            ∧ reading kv.2 ≠ [])
         (items sd).
Proof.
  intros sd. apply Forall_forall. intros [k v] Hin. simpl.
  apply dict_elem_of_get in Hin; [|apply tokenize_all_keys_NoDup].
  subst sd. rewrite tokenize_all_loop in Hin. simpl in Hin.
  rewrite dict_get_new_session in Hin.
  destruct (decide (k ∈ list_to_set ex)) as [?|Hout]; [done|].
  rewrite elem_of_list_to_set in Hout.
  rewrite foldl_merge_entry_None in Hin.
  destruct (occurrences_of k _) as [|m0 occs] eqn:Hocc; [done|].
  destruct (occurrences_of_head _ _ _ _ Hocc) as [Hid _].
  injection Hin as <-. simpl. split_and!; [done | done | lia | done].
Qed.

(** The same morphemes merged in another order give, key by key, the same
    count and the same readings up to their order; a key is in the one
    [items] exactly when it is in the other. *)
Theorem permuted_merge_counts (na : gset string) (ms1 ms2 : list Morpheme) :
  ms1 ≡ₚ ms2 ->
  ∀ k, match dict_get (tokenize_loop na [] ms1) k,
             dict_get (tokenize_loop na [] ms2) k with
       | Some v1, Some v2 =>
           count v1 = count v2 ∧ reading v1 ≡ₚ reading v2
       | None, None => True
       | _, _ => False
       end.
Proof.
  intros Hperm k. rewrite !dict_get_new_session.
  destruct (decide (k ∈ na)); [done|].
  rewrite !foldl_merge_entry_None.
  assert (occurrences_of k ms1 ≡ₚ occurrences_of k ms2) as Hocc
    by (unfold occurrences_of; by rewrite Hperm).
  destruct (occurrences_of k ms1) as [|m1 occs1],
           (occurrences_of k ms2) as [|m2 occs2]; simpl.
  - done.
  - by apply Permutation_nil_cons in Hocc.
  - symmetry in Hocc. by apply Permutation_nil_cons in Hocc.
  - split.
    + apply Permutation_length in Hocc. simpl in Hocc. lia.
    + change (reading_form <$> m1 :: occs1 ≡ₚ reading_form <$> m2 :: occs2).
      by rewrite Hocc.
Qed.

(** A witness of [permuted_merge_counts]: 猫 犬 猫 and 犬 猫 猫. *)
Lemma permuted_merge_counts_witness :
  [neko; inu; neko_kana] ≡ₚ [inu; neko_kana; neko]
  ∧ match dict_get (tokenize_loop ∅ [] [neko; inu; neko_kana]) (morpheme_id neko),
          dict_get (tokenize_loop ∅ [] [inu; neko_kana; neko]) (morpheme_id neko)
    with
    | Some v1, Some v2 => count v1 = count v2 ∧ reading v1 ≡ₚ reading v2
    | None, None => True
    | _, _ => False
    end.
Proof.
  assert ([neko; inu; neko_kana] ≡ₚ [inu; neko_kana; neko]) as Hperm.
  { change ([neko] ++ [inu; neko_kana] ≡ₚ [inu; neko_kana] ++ [neko]).
    apply Permutation_app_comm. }
  split; [exact Hperm|].
  apply (permuted_merge_counts ∅ _ _ Hperm).
Defined.

(** A text none of whose morphemes is accepted, an empty text among them,
    leaves the session data as it is; [tokenize] then answers with success
    and the backend is the one before the call. *)
Theorem tokenize_nothing_accepted (segment : string -> list Morpheme)
    (backend : store) (sid : UUID) (sd : SessionData) (text : string) :
  backend !! sid = Some sd ->
  accepted (list_to_set (exclude sd)) (segment text) = [] ->
  tokenize_data segment text sd = sd
  ∧ tokenize segment sid text backend = (backend, Returned SuccessResponse).
Proof.
  intros Hsd Hnone.
  assert (tokenize_data segment text sd = sd) as Hdata.
  { unfold tokenize_data. rewrite tokenize_loop_accepted, Hnone.
    by destruct sd. }
  split; [done|].
  unfold tokenize. rewrite (verifier_live _ _ sd) by done.
  rewrite Hdata. by rewrite insert_id.
Qed.

(** A witness of [tokenize_nothing_accepted]: the empty text. *)
Lemma tokenize_nothing_accepted_witness :
  let backend : store := {[ 7%N := SessionData_new [] ]} in
  backend !! 7%N = Some (SessionData_new [])
  ∧ tokenize char_segment 7%N EmptyString backend
    = (backend, Returned SuccessResponse).
Proof.
  intros backend.
  assert (backend !! 7%N = Some (SessionData_new [])) as Hlive by reflexivity.
  split; [exact Hlive|].
  apply (tokenize_nothing_accepted char_segment backend 7%N _ EmptyString Hlive).
  reflexivity.
Defined.

(** ** [create] and the life of a session *)

Lemma list_of_set_spec (l : list string) :
  NoDup (list_of_set l) ∧ ∀ x, x ∈ list_of_set l <-> x ∈ l.
Proof.
  unfold list_of_set. split; [apply NoDup_elements|].
  intros x. by rewrite elem_of_elements, elem_of_list_to_set.
Qed.

Lemma create_new (backend : store) sid ex :
  backend !! sid = None ->
  create sid ex backend
  = (<[sid := SessionData_new (list_of_set (token_to_id <$> ex))]> backend,
     Returned SuccessResponse).
Proof. intros Hsid. unfold create. by rewrite Hsid. Qed.

Lemma tokenize_calls_live segment (backend : store) sid sd texts :
  backend !! sid = Some sd ->
  tokenize_calls segment sid texts backend
  = <[sid := tokenize_all segment texts sd]> backend.
Proof.
  revert backend sd. induction texts as [|text texts IH]; intros backend sd Hsd.
  - simpl. by rewrite insert_id.
  - change (tokenize_calls segment sid (text :: texts) backend)
      with (tokenize_calls segment sid texts
              (tokenize segment sid text backend).1).
    unfold tokenize at 1. rewrite (verifier_live _ _ sd) by done. simpl.
    rewrite (IH _ (tokenize_data segment text sd)) by apply lookup_insert_eq.
    by rewrite insert_insert_eq.
Qed.

(** [create] on an id that has no session answers with success and adds a
    session under that id: its [items] are empty, its [exclude] holds each
    identity key of the tokens given once and nothing else; the other
    sessions are as before. *)
Theorem create_new_session (backend : store) (sid : UUID)
    (ex : list TokenResponse) :
  backend !! sid = None ->
  ∃ sd, create sid ex backend = (<[sid := sd]> backend, Returned SuccessResponse)
    ∧ items sd = []
    ∧ NoDup (exclude sd)
    ∧ (∀ k, k ∈ exclude sd <-> ∃ t, t ∈ ex ∧ token_to_id t = k)
    ∧ delete sid (create sid ex backend).1 = backend.
Proof.
  intros Hsid. rewrite create_new by done.
  eexists. split; [done|]. simpl.
  destruct (list_of_set_spec (token_to_id <$> ex)) as [Hnd Hin].
  split_and!; [done | done | |].
  - intros k. rewrite Hin, list_elem_of_fmap.
    split; [intros (t & -> & Ht) | intros (t & Ht & <-)]; by exists t.
  - rewrite delete_insert_eq. by apply delete_id.
Qed.

(** A witness of [create_new_session]: the first session of a backend,
    created with 猫 given twice to exclude. *)
Lemma create_new_session_witness :
  (∅ : store) !! 7%N = None
  ∧ ∃ sd, create 7%N [morpheme_to_token neko; morpheme_to_token neko_kana] ∅
          = (<[7%N := sd]> ∅, Returned SuccessResponse)
          ∧ items sd = [].
Proof.
  assert ((∅ : store) !! 7%N = None) as Hnew by reflexivity.
  split; [exact Hnew|].
  destruct (create_new_session ∅ 7%N
              [morpheme_to_token neko; morpheme_to_token neko_kana] Hnew)
    as (sd & Hcreate & Hitems & _).
  exists sd. split; [exact Hcreate | exact Hitems].
Defined.



(** A morpheme with the normalized form and the part of speech of a token
    given to [create] is never stored by the calls of [tokenize] that
    follow, whatever the reading, dictionary form and count of that
    token. *)
Theorem excluded_token_never_stored (segment : string -> list Morpheme)
    (backend : store) (sid : UUID) (ex : list TokenResponse)
    (texts : list string) (t : TokenResponse) (m : Morpheme) :
  backend !! sid = None ->
  t ∈ ex ->
  normalized_form m = normalized t ->
  morphome_to_pos m = pos t ->
  ∃ sd, tokenize_calls segment sid texts (create sid ex backend).1 !! sid
        = Some sd
    ∧ dict_get (items sd) (morpheme_id m) = None.
Proof.
  intros Hsid Ht Hnf Hpos.
  rewrite create_new by done. simpl.
  rewrite (tokenize_calls_live _ _ _
             (SessionData_new (list_of_set (token_to_id <$> ex))))
    by apply lookup_insert_eq.
  eexists. split; [apply lookup_insert_eq|].
  rewrite tokenize_all_loop. simpl.
  rewrite dict_get_tokenize_loop_excluded; [done|].
  apply elem_of_list_to_set, (proj2 (list_of_set_spec _)).
  apply list_elem_of_fmap. exists t. split; [|done].
  unfold morpheme_id, token_to_id. simpl. by rewrite Hnf, Hpos.
Qed.

(** A witness of [excluded_token_never_stored]: 猫 excluded through a
    token read ネコ, then met read ねこ. *)
Lemma excluded_token_never_stored_witness :
  (∅ : store) !! 7%N = None
  ∧ ∃ sd, tokenize_calls (fun _ => [neko; inu]) 7%N ["text"]
            (create 7%N [morpheme_to_token neko_kana] ∅).1 !! 7%N = Some sd
          ∧ dict_get (items sd) (morpheme_id neko) = None.
Proof.
  assert ((∅ : store) !! 7%N = None) as Hnew by reflexivity.
  split; [exact Hnew|].
  apply (excluded_token_never_stored (fun _ => [neko; inu]) ∅ 7%N
           [morpheme_to_token neko_kana] ["text"] (morpheme_to_token neko_kana)
           neko Hnew).
  - apply list_elem_of_here.
  - reflexivity.
  - reflexivity.
Defined.

(** On an id that has no session, [tokenize] and [finalize] raise the
    verifier's exception, status 403 and detail "invalid session", and
    leave the backend as it is. *)
Theorem unknown_session_rejected (segment : string -> list Morpheme)
    (backend : store) (sid : UUID) (text : string) :
  backend !! sid = None ->
  tokenize segment sid text backend
  = (backend, Raised (HTTPException 403 "invalid session"))
  ∧ finalize sid backend
    = (backend, Raised (HTTPException 403 "invalid session")).
Proof.
  intros Hsid. split; [by apply tokenize_unknown | by apply finalize_unknown].
Qed.

(** A witness of [unknown_session_rejected]: the empty backend. *)
Lemma unknown_session_rejected_witness :
  (∅ : store) !! 7%N = None
  ∧ tokenize char_segment 7%N "ab" ∅
    = (∅, Raised (HTTPException 403 "invalid session")).
Proof.
  assert ((∅ : store) !! 7%N = None) as Hnew by reflexivity.
  split; [exact Hnew|].
  apply (unknown_session_rejected char_segment ∅ 7%N "ab" Hnew).
Defined.

(** [finalize] and [destroy] touch no session but the one named, whether
    they succeed or fail. *)
Theorem finalize_destroy_frame (backend : store) (sid : UUID) :
  delete sid (finalize sid backend).1 = delete sid backend
  ∧ delete sid (destroy sid backend).1 = delete sid backend.
Proof.
  destruct (backend !! sid) as [sd|] eqn:Hsd.
  - rewrite (finalize_live _ _ sd), (destroy_live _ _ sd) by done. simpl.
    by rewrite delete_delete_eq.
  - by rewrite finalize_unknown, destroy_unknown.
Qed.

(** ** The tokens [finalize] sorts *)

Lemma finalize_sorted_perm sd :
  finalize_sorted sd ≡ₚ sorter_token <$> dict_values (items sd).
Proof. unfold finalize_sorted. rewrite list_sort_sorter. apply stable_sort_perm. Qed.

(** An entry of a new session's [items], from the accepted occurrences of
    its key. *)
Lemma tokenize_all_entry segment (ex texts : list string) k v :
  (k, v) ∈ items (tokenize_all segment texts (SessionData_new ex)) ->
  ∃ m0 occs,
    occurrences_of k (accepted (list_to_set ex) (morphemes_of segment texts))
    = m0 :: occs
    ∧ morpheme_id m0 = k
    ∧ v = {| dictionary := dictionary_form m0;
             normalized := normalized_form m0;
             reading := reading_form <$> m0 :: occs;
             pos := morphome_to_pos m0;
             count := Z.of_nat (length (m0 :: occs)) |}.
Proof.
  intros Hin.
  apply dict_elem_of_get in Hin; [|apply tokenize_all_keys_NoDup].
  rewrite tokenize_all_accepted in Hin.
  rewrite dict_get_tokenize_loop in Hin by apply not_elem_of_empty.
  simpl in Hin. rewrite foldl_merge_entry_None in Hin.
  destruct (occurrences_of k _) as [|m0 occs] eqn:Hocc; [done|].
  destruct (occurrences_of_head _ _ _ _ Hocc) as [Hid _].
  injection Hin as <-. by exists m0, occs.
Qed.

Lemma finalize_sorted_elem_of segment (ex texts : list string) t :
  t ∈ finalize_sorted (tokenize_all segment texts (SessionData_new ex)) ->
  ∃ k v, (k, v) ∈ items (tokenize_all segment texts (SessionData_new ex))
         ∧ t = sorter_token v.
Proof.
  rewrite finalize_sorted_perm. unfold dict_values.
  intros (v & -> & ([k v'] & -> & Hkv)%list_elem_of_fmap)%list_elem_of_fmap.
  by exists k, v'.
Qed.

(** For a session created with the exclusions [ex], after any texts, each
    token of the list [finalize] sorts has no reading twice; its readings
    are those of the accepted morphemes with its identity key, and its
    count is the number of these morphemes. *)
Theorem finalize_sorted_readings (segment : string -> list Morpheme)
    (ex : list string) (texts : list string) :
  let sd := tokenize_all segment texts (SessionData_new ex) in
  let ms := accepted (list_to_set ex) (morphemes_of segment texts) in
  Forall (fun t =>
            NoDup (reading t)
            ∧ (∀ r, r ∈ reading t
                    <-> ∃ m, m ∈ ms ∧ morpheme_id m = token_to_id t
                             ∧ reading_form m = r)
            ∧ count t = Z.of_nat (length (occurrences_of (token_to_id t) ms)))
         (finalize_sorted sd).
Proof.
  intros sd ms. apply Forall_forall. intros t Ht.
  apply finalize_sorted_elem_of in Ht as (k & v & Hkv & ->).
  apply tokenize_all_entry in Hkv as (m0 & occs & Hocc & Hid & ->).
  fold ms in Hocc.
  assert (token_to_id (sorter_token
            {| dictionary := dictionary_form m0;
               normalized := normalized_form m0;
               reading := reading_form <$> m0 :: occs;
               pos := morphome_to_pos m0;
               count := Z.of_nat (length (m0 :: occs)) |}) = k) as Hkey
    by exact Hid.
  rewrite Hkey, Hocc.
  destruct (list_of_set_spec (reading_form <$> m0 :: occs)) as [Hnd Hin].
  split_and!; [exact Hnd | | done].
  intros r. change (r ∈ list_of_set (reading_form <$> m0 :: occs)
                    <-> ∃ m, m ∈ ms ∧ morpheme_id m = k ∧ reading_form m = r).
  rewrite Hin, <- Hocc, list_elem_of_fmap. unfold occurrences_of. split.
  - intros (m & -> & [Hm Hms]%list_elem_of_filter). by exists m.
  - intros (m & Hms & Hm & <-). exists m. split; [done|].
    by apply list_elem_of_filter.
Qed.

(** For a session created with the exclusions [ex], after any texts, the
    list [finalize] sorts has one token for each key of [items] and no two
    tokens with the same identity key. *)
Theorem finalize_sorted_distinct_keys (segment : string -> list Morpheme)
    (ex : list string) (texts : list string) :
  let sd := tokenize_all segment texts (SessionData_new ex) in
  token_to_id <$> finalize_sorted sd ≡ₚ dict_keys (items sd)
  ∧ NoDup (token_to_id <$> finalize_sorted sd)
  ∧ length (finalize_sorted sd) = length (items sd).
Proof.
  intros sd.
  assert (token_to_id <$> finalize_sorted sd ≡ₚ dict_keys (items sd)) as Hperm.
  { rewrite finalize_sorted_perm. unfold dict_values, dict_keys.
    rewrite <- !list_fmap_compose.
    assert (Forall (fun kv => (token_to_id ∘ sorter_token ∘ snd) kv = kv.1)
                   (items sd)) as Hall.
    { apply Forall_forall. intros [k v] Hkv.
      apply tokenize_all_entry in Hkv as (m0 & occs & _ & Hid & ->).
      exact Hid. }
    induction Hall as [|kv its Hkv Hall IH]; [done|].
    rewrite !fmap_cons, Hkv. by apply Permutation_skip. }
  split_and!.
  - exact Hperm.
  - rewrite Hperm. apply tokenize_all_keys_NoDup.
  - rewrite <- (length_fmap token_to_id), Hperm. unfold dict_keys.
    by rewrite length_fmap.
Qed.

(** ** The script [scripts/test.py] *)

Lemma dict_total_perm {V} (f : V -> Z) (d d' : dict V) :
  d ≡ₚ d' -> dict_total f d = dict_total f d'.
Proof.
  induction 1 as [|[k v] d d' Hperm IH|[k v] [k' v'] d|d d' d'' _ IH1 _ IH2].
  - done.
  - by rewrite !dict_total_cons, IH.
  - rewrite !dict_total_cons. lia.
  - by rewrite IH1.
Qed.

Lemma count_elements_get (d : dict Z) (l : list string) (x : string) :
  dict_get (foldl count_element d l) x
  = match filter (fun y => y = x) l with
    | [] => dict_get d x
    | occ => Some (default 0 (dict_get d x) + Z.of_nat (length occ))
    end.
Proof.
  revert d. induction l as [|y l IH]; intros d; [done|].
  change (foldl count_element d (y :: l))
    with (foldl count_element (count_element d y) l).
  rewrite IH, filter_cons. unfold count_element.
  destruct (decide (y = x)) as [->|Hne].
  - rewrite dict_get_set_eq.
    destruct (filter (fun y => y = x) l) as [|z occ]; simpl; f_equal; lia.
  - by rewrite dict_get_set_ne.
Qed.

Lemma count_elements_keys_NoDup (d : dict Z) (l : list string) :
  NoDup (dict_keys d) -> NoDup (dict_keys (foldl count_element d l)).
Proof.
  revert d. induction l as [|y l IH]; intros d Hnd; [done|].
  apply IH. by apply dict_keys_set_NoDup.
Qed.

Lemma count_elements_total (d : dict Z) (l : list string) :
  dict_total id (foldl count_element d l)
  = dict_total id d + Z.of_nat (length l).
Proof.
  revert d. induction l as [|y l IH]; intros d; [simpl; lia|].
  change (foldl count_element d (y :: l))
    with (foldl count_element (count_element d y) l).
  rewrite IH. unfold count_element. rewrite dict_total_set.
  destruct (dict_get d y); simpl length; simpl; unfold id; lia.
Qed.

Lemma Counter_get (l : list string) (x : string) :
  dict_get (Counter l) x
  = match filter (fun y => y = x) l with
    | [] => None
    | occ => Some (Z.of_nat (length occ))
    end.
Proof.
  unfold Counter. rewrite count_elements_get. simpl.
  by destruct (filter (fun y => y = x) l).
Qed.

Lemma script_items_filter segment re_ja_search text :
  script_items segment re_ja_search text
  = script_line
      <$> filter (fun t => re_ja_search (normalized_form t) = true)
                 (segment text).
Proof.
  unfold script_items.
  assert (∀ ms acc,
            foldl (fun items t =>
                     if re_ja_search (normalized_form t)
                     then items ++ [script_line t] else items) acc ms
            = acc ++ (script_line
                        <$> filter (fun t => re_ja_search (normalized_form t)
                                             = true) ms)) as Hloop.
  { induction ms as [|t ms IH]; intros acc; [by rewrite app_nil_r|].
    simpl foldl. rewrite IH, filter_cons.
    destruct (re_ja_search (normalized_form t)).
    - rewrite decide_True by done. by rewrite fmap_cons, <- app_assoc.
    - by rewrite decide_False by done. }
  apply (Hloop _ []).
Qed.

(** [Counter] gives each element of the list the number of times it is in
    the list, gives nothing to what is not in the list, and has each key
    once. *)
Theorem Counter_counts (l : list string) :
  NoDup (dict_keys (Counter l))
  ∧ ∀ x, dict_get (Counter l) x
         = if decide (x ∈ l)
           then Some (Z.of_nat (length (filter (fun y => y = x) l)))
           else None.
Proof.
  split; [apply count_elements_keys_NoDup, NoDup_nil_2|].
  intros x. rewrite Counter_get.
  destruct (filter (fun y => y = x) l) as [|z occ] eqn:Hocc.
  - rewrite decide_False; [done|]. intros Hx.
    assert (x ∈ filter (fun y => y = x) l) as Hin
      by (by apply list_elem_of_filter).
    rewrite Hocc in Hin. by apply elem_of_nil in Hin.
  - rewrite decide_True; [done|].
    assert (z ∈ filter (fun y => y = x) l) as [-> Hz]%list_elem_of_filter
      by (rewrite Hocc; apply list_elem_of_here).
    done.
Qed.

(** [most_common] gives the pairs of the counter by count descending, the
    pairs of one count in the order the counter has them. *)
Theorem most_common_order (c : dict Z) :
  most_common c ≡ₚ c
  ∧ StronglySorted (fun a b => a.2 >= b.2) (most_common c)
  ∧ ∀ n, filter (fun kn => kn.2 = n) (most_common c)
         = filter (fun kn => kn.2 = n) c.
Proof.
  unfold most_common. split_and!.
  - apply stable_sort_perm.
  - eapply StronglySorted_weaken;
      [|apply (stable_sort_sorted (fun kn : string * Z => - kn.2))].
    simpl. intros a b Hab. lia.
  - intros n.
    rewrite (list_filter_iff (fun kn : string * Z => kn.2 = n)
                             (fun kn => - kn.2 = - n)) by (intros kn; lia).
    rewrite stable_sort_stable. apply list_filter_iff. intros kn. lia.
Qed.

Lemma filter_fmap_length {A B} `{EqDecision B} (f : A -> B) (l : list A) y :
  length (filter (fun x => x = y) (f <$> l))
  = length (filter (fun a => f a = y) l).
Proof.
  induction l as [|a l IH]; [done|].
  rewrite fmap_cons, !filter_cons.
  destruct (decide (f a = y)); simpl; by rewrite IH.
Qed.

(** The table the script prints has a line for each distinct string of a
    morpheme whose normalized form the pattern finds, with the number of
    such morphemes that gave that string, which is at least 1; no string
    has two lines, and the numbers add up to the number of these
    morphemes. *)
Theorem script_table_counts (segment : string -> list Morpheme)
    (re_ja_search : string -> bool) (text : string) :
  let found := filter (fun t => re_ja_search (normalized_form t) = true)
                      (segment text) in
  let table := most_common (Counter (script_items segment re_ja_search text)) in
  script_output segment re_ja_search text
  = (fun kn => kn.1 +:+ "         " +:+ str_int kn.2) <$> table
  ∧ NoDup table.*1
  ∧ Forall (fun kn =>
              kn.2 = Z.of_nat (length (filter (fun t => script_line t = kn.1)
                                              found))
              ∧ 1 <= kn.2)
           table
  ∧ Forall (fun t => script_line t ∈ table.*1) found
  ∧ dict_total id table = Z.of_nat (length found).
Proof.
  intros found table. subst table.
  set (its := script_items segment re_ja_search text).
  assert (its = script_line <$> found) as Hits by apply script_items_filter.
  assert (most_common (Counter its) ≡ₚ Counter its) as Hperm
    by apply stable_sort_perm.
  assert (NoDup (dict_keys (Counter its))) as Hnd
    by apply count_elements_keys_NoDup, NoDup_nil_2.
  split_and!.
  - done.
  - rewrite Hperm. exact Hnd.
  - apply Forall_forall. intros [k n] Hkn. simpl.
    rewrite Hperm in Hkn. apply dict_elem_of_get in Hkn; [|done].
    rewrite Counter_get in Hkn.
    assert (length (filter (fun y => y = k) its)
            = length (filter (fun t => script_line t = k) found)) as Hlen
      by (rewrite Hits; apply filter_fmap_length).
    destruct (filter (fun y => y = k) its) as [|z occ]; [done|].
    injection Hkn as <-. rewrite <- Hlen. simpl length. split; [done | lia].
  - apply Forall_forall. intros t Ht. rewrite Hperm.
    destruct (dict_get (Counter its) (script_line t)) as [n|] eqn:Hget.
    + apply dict_get_elem_of in Hget.
      by apply (list_elem_of_fmap_2 fst) in Hget.
    + rewrite Counter_get in Hget.
      assert (script_line t ∈ filter (fun y => y = script_line t) its) as Hin.
      { apply list_elem_of_filter. split; [done|].
        rewrite Hits. by apply list_elem_of_fmap_2. }
      destruct (filter _ its); [by apply elem_of_nil in Hin | done].
  - rewrite (dict_total_perm _ _ _ Hperm). unfold Counter.
    rewrite count_elements_total, Hits, length_fmap. unfold dict_total. simpl. lia.
Qed.
